(** * The Python starter script [languages/python/starters/python3.py]

    A shallow embedding of the script and the properties its specification
    states about it.  Python's [int] is unbounded, so integers are [Z];
    [str] is [string]; a [list] of integers is [list Z]; a [dict] is an
    association list in insertion order.  Objects live in a heap indexed by
    addresses, module-level names are bound to addresses, and [print]
    appends to the standard-output stream. *)

From Stdlib Require Import ZArith Lia Ascii String DecimalString.
From Equations Require Import Equations.
From stdpp Require Import base option list strings gmap.

Local Open Scope Z_scope.

(** ** The recursive function [fib] *)

Module Fib.

(** [def fib(n): if n <= 1: return n; return fib(n - 1) + fib(n - 2)]

    The recursion is not structural.  The measure is the distance of [n]
    above the guard, [Z.to_nat n]. *)
Equations? fib (n : Z) : Z by wf (Z.to_nat n) lt :=
  fib n with Z_le_gt_dec n 1 => {
    | left _ := n;
    | right _ := fib (n - 1) + fib (n - 2) }.
Proof. all: lia. Qed.

(** The same body run with a bound on the depth of the call stack.  [None]
    is what Python reports as [RecursionError] when the bound is hit; the
    left operand of [+] is evaluated first, as in Python. *)
Fixpoint fib_depth (depth : nat) (n : Z) : option Z :=
  match depth with
  | O => None
  | S d =>
      if n <=? 1 then Some n
      else match fib_depth d (n - 1) with
           | None => None
           | Some a =>
               match fib_depth d (n - 2) with
               | None => None
               | Some b => Some (a + b)
               end
           end
  end.

(** The call [fib(n)] returns when some stack depth suffices, and runs into
    unbounded recursion when no depth does. *)
Definition terminates (n : Z) : Prop := exists depth v, fib_depth depth n = Some v.
Definition diverges (n : Z) : Prop := forall depth, fib_depth depth n = None.

(** The reference recurrence of the specification, on natural indices:
    F(0) = 0, F(1) = 1, F(n) = F(n-1) + F(n-2). *)
Fixpoint fib_ref (n : nat) : Z :=
  match n with
  | O => 0
  | S k =>
      match k with
      | O => 1
      | S j => fib_ref k + fib_ref j
      end
  end.

End Fib.

Import Fib.

(** ** The builtins the script calls *)

(** Insertion-ordered dictionaries with integer keys and values. *)
Definition dict := list (Z * Z).

(** [d[k] = v]: an existing key keeps its position and gets the new value;
    a new key goes to the end. *)
Fixpoint dict_set (k v : Z) (d : dict) : dict :=
  match d with
  | [] => [(k, v)]
  | (k', v') :: rest =>
      if Z.eqb k' k then (k', v) :: rest else (k', v') :: dict_set k v rest
  end.

(** [d[k]], with [None] for [KeyError]. *)
Fixpoint dict_get (k : Z) (d : dict) : option Z :=
  match d with
  | [] => None
  | (k', v') :: rest => if Z.eqb k' k then Some v' else dict_get k rest
  end.

(** [list(d.keys())]: the keys in insertion order. *)
Definition dict_keys (d : dict) : list Z := fst <$> d.

(** [range(lo, hi)]: the integers [lo], [lo+1], ..., [hi-1]. *)
Definition range (lo hi : Z) : list Z := seqZ lo (hi - lo).

(** [list(filter(f, xs))]: the elements on which [f] is true, in order. *)
Fixpoint py_filter (f : Z -> bool) (xs : list Z) : list Z :=
  match xs with
  | [] => []
  | x :: rest => if f x then x :: py_filter f rest else py_filter f rest
  end.

(** [str(z)] for an integer: decimal digits, with a leading minus sign for
    negative numbers. *)
Definition str_int (z : Z) : string := NilZero.string_of_int (Z.to_int z).

(** [str(xs)] for a list of integers: [[2, 4, 6]]. *)
Definition repr_list (xs : list Z) : string :=
  "[" +:+ String.concat ", " (str_int <$> xs) +:+ "]".

(** [str(d)] for a dictionary: [{1: 1, 2: 4}]. *)
Definition repr_dict (d : dict) : string :=
  "{" +:+ String.concat ", " ((fun kv => str_int kv.1 +:+ ": " +:+ str_int kv.2) <$> d) +:+ "}".

(** What [print] can be handed in this script. *)
Inductive value :=
| VInt (z : Z)
| VStr (s : string)
| VList (xs : list Z)
| VDict (d : dict).

Definition str (v : value) : string :=
  match v with
  | VInt z => str_int z
  | VStr s => s
  | VList xs => repr_list xs
  | VDict d => repr_dict d
  end.

(** The line feed that ends every [print]. *)
Definition nl : string := String "010"%char EmptyString.

(** The text one call [print(a1, ..., ak)] writes: the arguments' [str],
    separated by one space, then a line feed. *)
Definition print_text (args : list value) : string :=
  String.concat " " (str <$> args) +:+ nl.

(** ** The class [User] *)

Record User := { name : string; age : Z }.

(** [def __init__(self, name: str, age: int): self.name = name; self.age = age] *)
Definition __init__ (name0 : string) (age0 : Z) : User :=
  {| name := name0; age := age0 |}.

(** [def greet(self) -> str: return f"Hello, {self.name}!"] *)
Definition greet (self : User) : string := "Hello, " +:+ name self +:+ "!".

(** ** The three expressions that build containers *)

(** [[n * 2 for n in numbers]] *)
Definition doubled_of (numbers : list Z) : list Z := (fun n => n * 2) <$> numbers.

(** [{n: n**2 for n in range(1, 6)}] *)
Definition squares_of : dict :=
  foldl (fun d n => dict_set n (n ^ 2) d) [] (range 1 6).

(** [list(filter(lambda x: x % 2 == 0, numbers))] *)
Definition evens_of (numbers : list Z) : list Z :=
  py_filter (fun x => x `mod` 2 =? 0) numbers.

(** ** The state of a run *)

(** The mutable objects the script creates.  A name is bound to the address
    of an object, so two names can share one object and a change made
    through one would be seen through the other. *)
Inductive obj :=
| OList (xs : list Z)
| ODict (d : dict)
| OUser (u : User).

Record state := State {
  heap : list obj;            (* the object at address [l] is [heap !! l] *)
  globals : gmap string nat;  (* module-level names *)
  stdout : string             (* everything written so far *)
}.

Definition initial : state := State [] ∅ EmptyString.

(** A new object gets the next free address. *)
Definition alloc (o : obj) (s : state) : nat * state :=
  (length (heap s), State (heap s ++ [o]) (globals s) (stdout s)).

(** [x = <new object o>] *)
Definition assign (x : string) (o : obj) (s : state) : state :=
  let '(l, s1) := alloc o s in
  State (heap s1) (<[x := l]> (globals s1)) (stdout s1).

(** Reading a name; [None] stands for [NameError]. *)
Definition load (x : string) (s : state) : option obj :=
  l ← globals s !! x; heap s !! l.

Definition load_list (x : string) (s : state) : option (list Z) :=
  o ← load x s; match o with OList xs => Some xs | _ => None end.

Definition load_dict (x : string) (s : state) : option dict :=
  o ← load x s; match o with ODict d => Some d | _ => None end.

Definition load_user (x : string) (s : state) : option User :=
  o ← load x s; match o with OUser u => Some u | _ => None end.

(** [print(a1, ..., ak)] *)
Definition print (args : list value) (s : state) : state :=
  State (heap s) (globals s) (stdout s +:+ print_text args).

(** ** The script, statement by statement

    [def fib] and [class User] are the definitions above; the ten
    statements that run are these, in source order.  [None] is an uncaught
    exception. *)
Definition stmt := state -> option state.

(** [print(f"fib(10) = {fib(10)}")] *)
Definition print_fib : stmt := fun s =>
  Some (print [VStr ("fib(10) = " +:+ str_int (fib 10))] s).

(** [numbers = [1, 2, 3, 4, 5]] *)
Definition set_numbers : stmt := fun s =>
  Some (assign "numbers" (OList [1; 2; 3; 4; 5]) s).

(** [doubled = [n * 2 for n in numbers]] *)
Definition set_doubled : stmt := fun s =>
  numbers ← load_list "numbers" s;
  Some (assign "doubled" (OList (doubled_of numbers)) s).

(** [print("Doubled:", doubled)] *)
Definition print_doubled : stmt := fun s =>
  doubled ← load_list "doubled" s;
  Some (print [VStr "Doubled:"; VList doubled] s).

(** [user = User("Nina", 25)] *)
Definition set_user : stmt := fun s =>
  Some (assign "user" (OUser (__init__ "Nina" 25)) s).

(** [print(user.greet())] *)
Definition print_greet : stmt := fun s =>
  user ← load_user "user" s;
  Some (print [VStr (greet user)] s).

(** [squares = {n: n**2 for n in range(1, 6)}] *)
Definition set_squares : stmt := fun s =>
  Some (assign "squares" (ODict squares_of) s).

(** [print("Squares:", squares)] *)
Definition print_squares : stmt := fun s =>
  squares ← load_dict "squares" s;
  Some (print [VStr "Squares:"; VDict squares] s).

(** [evens = list(filter(lambda x: x % 2 == 0, numbers))] *)
Definition set_evens : stmt := fun s =>
  numbers ← load_list "numbers" s;
  Some (assign "evens" (OList (evens_of numbers)) s).

(** [print("Evens:", evens)] *)
Definition print_evens : stmt := fun s =>
  evens ← load_list "evens" s;
  Some (print [VStr "Evens:"; VList evens] s).

Definition script : list stmt :=
  [print_fib; set_numbers; set_doubled; print_doubled; set_user;
   print_greet; set_squares; print_squares; set_evens; print_evens].

(** Statements run top to bottom; the first exception ends the run. *)
Fixpoint run (prog : list stmt) (s : state) : option state :=
  match prog with
  | [] => Some s
  | c :: rest => s' ← c s; run rest s'
  end.

(** The state once the first [k] statements have run. *)
Definition state_after (k : nat) : option state := run (take k script) initial.

(** ** Reading standard output line by line *)

(** The lines of a text in which every line ends with a line feed; [None]
    when the text ends in the middle of a line.  [cur] is the line being
    read, in reverse. *)
Fixpoint lines_from (cur : list ascii) (text : string) : option (list string) :=
  match text with
  | EmptyString => match cur with [] => Some [] | _ => None end
  | String c rest =>
      if Ascii.eqb c "010"%char
      then cons (string_of_list_ascii (rev cur)) <$> lines_from [] rest
      else lines_from (c :: cur) rest
  end.

Definition lines (text : string) : option (list string) := lines_from [] text.

(** ** Later states only add to earlier ones *)

(** [s'] has everything [s] has, unchanged: each address holds the same
    object, each name is bound to the same address, and what was written
    is still the beginning of the output. *)
Record extends (s s' : state) : Prop := {
  ext_heap : forall l o, heap s !! l = Some o -> heap s' !! l = Some o;
  ext_globals : forall x l, globals s !! x = Some l -> globals s' !! x = Some l;
  ext_stdout : exists more, stdout s' = stdout s +:+ more
}.

(** [s'] is [s] with one more object [o], at an address that was free,
    and the name [x] bound to it; every object already there, every other
    name and the output are as they were. *)
Definition creates (x : string) (o : obj) (s s' : state) : Prop :=
  exists l : nat,
    heap s !! l = None
    /\ heap s' !! l = Some o
    /\ globals s' !! x = Some l
    /\ (forall l' o', heap s !! l' = Some o' -> heap s' !! l' = Some o')
    /\ (forall y, y <> x -> globals s' !! y = globals s !! y)
    /\ stdout s' = stdout s.

(** ** Counting the calls of [fib]

    The body of [fib] once more, returning next to the result the number of
    times [fib] was entered, the outer call included. *)
Fixpoint fib_calls (depth : nat) (n : Z) : option (Z * Z) :=
  match depth with
  | O => None
  | S d =>
      if n <=? 1 then Some (n, 1)
      else match fib_calls d (n - 1) with
           | None => None
           | Some (a, ca) =>
               match fib_calls d (n - 2) with
               | None => None
               | Some (b, cb) => Some (a + b, 1 + ca + cb)
               end
           end
  end.


(** * Properties *)

(** ** [fib] *)

Section FibFacts.

(** The body of [fib], as one equation. *)
Lemma fib_unfold (n : Z) :
  fib n = if n <=? 1 then n else fib (n - 1) + fib (n - 2).
Proof.
  rewrite fib_equation_1.
  destruct (Z_le_gt_dec n 1) as [Hle | Hgt], (Z.leb_spec n 1); simpl; lia || reflexivity.
Qed.

Lemma fib_guard (n : Z) : n <= 1 -> fib n = n.
Proof.
  intros Hle. rewrite fib_unfold.
  destruct (Z.leb_spec n 1); [reflexivity | lia].
Qed.

Lemma fib_rec (n : Z) : 1 < n -> fib n = fib (n - 1) + fib (n - 2).
Proof.
  intros Hgt. rewrite fib_unfold.
  destruct (Z.leb_spec n 1); [lia | reflexivity].
Qed.

(** Whatever a bounded run returns is the value of [fib]. *)
Lemma fib_depth_sound (depth : nat) :
  forall n v, fib_depth depth n = Some v -> v = fib n.
Proof.
  induction depth as [| d IH]; intros n v Hrun; simpl in Hrun; [discriminate |].
  rewrite fib_unfold.
  destruct (n <=? 1); [congruence |].
  destruct (fib_depth d (n - 1)) as [a |] eqn:Ha; [| discriminate].
  destruct (fib_depth d (n - 2)) as [b |] eqn:Hb; [| discriminate].
  apply IH in Ha, Hb. congruence.
Qed.

(** A stack of [max 1 n] frames is enough for [fib(n)]. *)
Lemma fib_depth_enough (depth : nat) :
  forall n, (0 < depth)%nat -> n <= Z.of_nat depth -> fib_depth depth n = Some (fib n).
Proof.
  induction depth as [| d IH]; intros n Hpos Hn; [lia |].
  simpl. rewrite (fib_unfold n).
  destruct (Z.leb_spec n 1) as [Hle | Hgt]; [reflexivity |].
  rewrite !IH by lia. reflexivity.
Qed.

(** A deeper stack does not change the result. *)
Lemma fib_depth_mono (d d' : nat) (n v : Z) :
  (d <= d')%nat -> fib_depth d n = Some v -> fib_depth d' n = Some v.
Proof.
  revert d' n v. induction d as [| d IH]; intros d' n v Hle Hrun; [discriminate |].
  destruct d' as [| d']; [lia |].
  simpl in *. destruct (n <=? 1); [exact Hrun |].
  destruct (fib_depth d (n - 1)) as [a |] eqn:Ha; [| discriminate].
  destruct (fib_depth d (n - 2)) as [b |] eqn:Hb; [| discriminate].
  rewrite (IH d' _ _ ltac:(lia) Ha), (IH d' _ _ ltac:(lia) Hb). exact Hrun.
Qed.


(** The reference recurrence, two steps at a time. *)
Lemma fib_ref_SS (k : nat) : fib_ref (S (S k)) = fib_ref (S k) + fib_ref k.
Proof. reflexivity. Qed.

Lemma fib_is_ref_nat (k : nat) :
  fib (Z.of_nat k) = fib_ref k /\ fib (Z.of_nat (S k)) = fib_ref (S k).
Proof.
  induction k as [| k [IH0 IH1]].
  - split; reflexivity.
  - split; [exact IH1 |].
    rewrite fib_rec by lia. rewrite fib_ref_SS.
    replace (Z.of_nat (S (S k)) - 1) with (Z.of_nat (S k)) by lia.
    replace (Z.of_nat (S (S k)) - 2) with (Z.of_nat k) by lia.
    congruence.
Qed.

End FibFacts.

(** C1.  For every non-negative integer [n], [fib(n)] is the [n]-th number
    of the reference recurrence F(0) = 0, F(1) = 1, F(n) = F(n-1) + F(n-2):
    the function has that value, and the call returns it once the stack
    holds [max n 1] frames.  In particular [fib(0) = 0], [fib(1) = 1] and
    [fib(10) = 55]. *)
Theorem fib_reference (n : Z) (Hn : 0 <= n) :
  fib n = fib_ref (Z.to_nat n)
  /\ fib_depth (Z.to_nat (Z.max n 1)) n = Some (fib_ref (Z.to_nat n))
  /\ fib 0 = 0 /\ fib 1 = 1 /\ fib 10 = 55.
Proof.
  assert (Href : fib n = fib_ref (Z.to_nat n)).
  { destruct (fib_is_ref_nat (Z.to_nat n)) as [H0 _].
    rewrite Z2Nat.id in H0 by exact Hn. exact H0. }
  split; [exact Href |].
  split; [| repeat split; reflexivity].
  rewrite <- Href. apply fib_depth_enough; lia.
Qed.

Lemma fib_reference_witness :
  0 <= 7
  /\ fib 7 = fib_ref (Z.to_nat 7)
  /\ fib_depth (Z.to_nat (Z.max 7 1)) 7 = Some (fib_ref (Z.to_nat 7))
  /\ fib 0 = 0 /\ fib 1 = 1 /\ fib 10 = 55.
Proof. split; [lia | apply (fib_reference 7); lia]. Defined.

(** C2, as the specification states it, fails: [fib(-3)] does not recurse
    without bound, it returns at the first frame. *)
Lemma fib_negative_diverges_counterexample : -3 < 0 /\ ~ diverges (-3).
Proof.
  split; [lia |].
  intros Hdiv. specialize (Hdiv 1%nat). discriminate Hdiv.
Qed.

(** C2, amended.  For every negative integer [n] the guard [n <= 1] holds,
    so [fib(n)] makes no recursive call: one stack frame is enough and the
    result is [n] itself. *)
Theorem fib_negative_returns (n : Z) (Hn : n < 0) :
  (forall depth, fib_depth (S depth) n = Some n) /\ fib n = n /\ ~ diverges n.
Proof.
  assert (Hone : forall depth, fib_depth (S depth) n = Some n).
  { intros depth. simpl. destruct (Z.leb_spec n 1); [reflexivity | lia]. }
  split; [exact Hone |].
  split; [apply fib_guard; lia |].
  intros Hdiv. specialize (Hdiv 1%nat). rewrite Hone in Hdiv. discriminate Hdiv.
Qed.

Lemma fib_negative_returns_witness :
  -3 < 0
  /\ (forall depth, fib_depth (S depth) (-3) = Some (-3))
  /\ fib (-3) = -3 /\ ~ diverges (-3).
Proof. split; [lia | apply (fib_negative_returns (-3)); lia]. Defined.

(** C9.  [fib] is total on the integers: for every [n], negative ones
    included, the call returns, with a stack of [max n 1] frames; and for
    every [n <= 1] it returns [n] itself at the first frame. *)
Theorem fib_total (n : Z) :
  terminates n
  /\ fib_depth (Z.to_nat (Z.max n 1)) n = Some (fib n)
  /\ (n <= 1 -> fib_depth 1 n = Some n /\ fib n = n).
Proof.
  assert (Hrun : fib_depth (Z.to_nat (Z.max n 1)) n = Some (fib n)).
  { apply fib_depth_enough; lia. }
  split; [exists (Z.to_nat (Z.max n 1)), (fib n); exact Hrun |].
  split; [exact Hrun |].
  intros Hle. split; [| apply fib_guard; exact Hle].
  simpl. destruct (Z.leb_spec n 1); [reflexivity | lia].
Qed.

Lemma fib_total_witness :
  terminates (-3)
  /\ fib_depth (Z.to_nat (Z.max (-3) 1)) (-3) = Some (fib (-3))
  /\ fib_depth 1 (-3) = Some (-3) /\ fib (-3) = -3.
Proof.
  refine (conj (proj1 (fib_total (-3)))
            (conj (proj1 (proj2 (fib_total (-3))))
               (proj2 (proj2 (fib_total (-3))) _))).
  lia.
Defined.

(** ** Allocation and assignment *)

Section StateFacts.

Lemma assign_creates (x : string) (o : obj) (s : state) :
  creates x o s (assign x o s).
Proof.
  exists (length (heap s)). unfold assign; simpl.
  split; [apply lookup_ge_None_2; lia |].
  split; [apply list_lookup_middle; reflexivity |].
  split; [apply lookup_insert_eq |].
  split; [intros l' o' Hl'; apply lookup_app_l_Some; exact Hl' |].
  split; [| reflexivity].
  intros y Hy. apply lookup_insert_ne. congruence.
Qed.

(** A name other than the one just assigned still reads as before. *)
Lemma creates_load (x y : string) (o o' : obj) (s s' : state) :
  creates x o s s' -> y <> x -> load y s = Some o' -> load y s' = Some o'.
Proof.
  intros (l & _ & _ & _ & Hheap & Hglob & _) Hy Hload.
  unfold load in *. rewrite (Hglob y Hy).
  destruct (globals s !! y) as [ly |]; simpl in *; [| discriminate].
  apply Hheap. exact Hload.
Qed.

Lemma creates_load_list (x y : string) (o : obj) (xs : list Z) (s s' : state) :
  creates x o s s' -> y <> x -> load_list y s = Some xs -> load_list y s' = Some xs.
Proof.
  intros Hc Hy Hload. unfold load_list in *.
  destruct (load y s) as [oy |] eqn:Hy0; simpl in Hload; [| discriminate].
  rewrite (creates_load _ _ _ _ _ _ Hc Hy Hy0). exact Hload.
Qed.

End StateFacts.

(** ** The doubling comprehension *)

(** C4.  The doubling transformation maps every input sequence [S] to a
    sequence of the same length whose element at each index is twice the
    element of [S] at that index.  The statement that runs it stores the
    result in a new object: the input list and every other object are
    unchanged, and nothing is printed. *)
Theorem doubling_spec (S : list Z) :
  length (doubled_of S) = length S
  /\ (forall i : nat, doubled_of S !! i = (fun x => 2 * x) <$> S !! i)
  /\ forall s : state,
       load_list "numbers" s = Some S ->
       exists s',
         set_doubled s = Some s'
         /\ creates "doubled" (OList (doubled_of S)) s s'
         /\ load_list "numbers" s' = Some S.
Proof.
  split; [apply length_fmap |].
  split.
  - intros i. unfold doubled_of. rewrite list_lookup_fmap.
    destruct (S !! i) as [x |]; simpl; [f_equal; lia | reflexivity].
  - intros s Hnum.
    exists (assign "doubled" (OList (doubled_of S)) s).
    pose proof (assign_creates "doubled" (OList (doubled_of S)) s) as Hc.
    split; [unfold set_doubled; rewrite Hnum; reflexivity |].
    split; [exact Hc |].
    apply (creates_load_list _ _ _ _ _ _ Hc); [discriminate | exact Hnum].
Qed.

Lemma doubling_spec_witness :
  load_list "numbers" (assign "numbers" (OList [3; -1; 0]) initial) = Some [3; -1; 0]
  /\ length (doubled_of [3; -1; 0]) = length [3; -1; 0]
  /\ (forall i : nat, doubled_of [3; -1; 0] !! i = (fun x => 2 * x) <$> [3; -1; 0] !! i)
  /\ exists s',
       set_doubled (assign "numbers" (OList [3; -1; 0]) initial) = Some s'
       /\ creates "doubled" (OList (doubled_of [3; -1; 0]))
            (assign "numbers" (OList [3; -1; 0]) initial) s'
       /\ load_list "numbers" s' = Some [3; -1; 0].
Proof.
  split; [reflexivity |].
  split; [exact (proj1 (doubling_spec [3; -1; 0])) |].
  split; [exact (proj1 (proj2 (doubling_spec [3; -1; 0]))) |].
  apply (proj2 (proj2 (doubling_spec [3; -1; 0]))). reflexivity.
Defined.

(** ** Dictionaries and the squares comprehension *)

Section DictFacts.

Lemma dict_get_set_eq (k v : Z) (d : dict) : dict_get k (dict_set k v d) = Some v.
Proof.
  induction d as [| [k' v'] rest IH]; simpl.
  - rewrite Z.eqb_refl. reflexivity.
  - destruct (Z.eqb_spec k' k) as [-> | Hne]; simpl.
    + rewrite Z.eqb_refl. reflexivity.
    + destruct (Z.eqb_spec k' k); [contradiction | exact IH].
Qed.

Lemma dict_get_set_ne (k k0 v : Z) (d : dict) :
  k0 <> k -> dict_get k0 (dict_set k v d) = dict_get k0 d.
Proof.
  intros Hne. induction d as [| [k' v'] rest IH]; simpl.
  - destruct (Z.eqb_spec k k0); [congruence | reflexivity].
  - destruct (Z.eqb_spec k' k) as [-> | Hk]; simpl.
    + destruct (Z.eqb_spec k k0); [congruence | reflexivity].
    + rewrite IH. reflexivity.
Qed.

(** Setting a key that is there leaves the key list alone. *)
Lemma dict_keys_set_old (k v : Z) (d : dict) :
  k ∈ dict_keys d -> dict_keys (dict_set k v d) = dict_keys d.
Proof.
  unfold dict_keys. induction d as [| [k' v'] rest IH]; intros Hin.
  - apply elem_of_nil in Hin. contradiction.
  - cbn [dict_set]. destruct (Z.eqb_spec k' k) as [-> | Hk]; [reflexivity |].
    rewrite !fmap_cons. f_equal. apply IH.
    rewrite fmap_cons in Hin. apply elem_of_cons in Hin.
    destruct Hin as [-> | Hin]; [contradiction Hk; reflexivity | exact Hin].
Qed.

(** Setting a key that is not there adds it at the end. *)
Lemma dict_keys_set_new (k v : Z) (d : dict) :
  k ∉ dict_keys d -> dict_keys (dict_set k v d) = dict_keys d ++ [k].
Proof.
  unfold dict_keys. induction d as [| [k' v'] rest IH]; intros Hout.
  - reflexivity.
  - cbn [dict_set]. rewrite fmap_cons in Hout. apply not_elem_of_cons in Hout.
    destruct Hout as [Hne Hout].
    destruct (Z.eqb_spec k' k) as [-> | Hk]; [contradiction Hne; reflexivity |].
    rewrite !fmap_cons. rewrite (IH Hout). reflexivity.
Qed.

(** Keys stay unique under [dict_set]. *)
Lemma dict_set_NoDup (k v : Z) (d : dict) :
  NoDup (dict_keys d) -> NoDup (dict_keys (dict_set k v d)).
Proof.
  intros Hnd. destruct (decide (k ∈ dict_keys d)) as [Hin | Hout].
  - rewrite dict_keys_set_old by exact Hin. exact Hnd.
  - rewrite dict_keys_set_new by exact Hout.
    apply NoDup_app. split; [exact Hnd |].
    split; [| apply NoDup_singleton].
    intros x Hx Hx'. apply list_elem_of_singleton in Hx'. subst x. exact (Hout Hx).
Qed.

End DictFacts.

(** C5.  The squares mapping has exactly the keys 1, 2, 3, 4, 5, each once
    and in the order of the generating range, and maps every key [k] to
    [k * k]; no other integer is a key. *)
Theorem squares_spec (k : Z) :
  dict_keys squares_of = [1; 2; 3; 4; 5]
  /\ NoDup (dict_keys squares_of)
  /\ list_to_set (dict_keys squares_of) = ({[1; 2; 3; 4; 5]} : gset Z)
  /\ dict_get k squares_of = if bool_decide (1 <= k <= 5) then Some (k * k) else None.
Proof.
  split; [reflexivity |].
  split.
  { unfold squares_of.
    change (range 1 6) with [1; 2; 3; 4; 5]. cbn [foldl].
    do 5 apply dict_set_NoDup. apply NoDup_nil_2. }
  split.
  { change (dict_keys squares_of) with [1; 2; 3; 4; 5]. simpl. set_solver. }
  change squares_of with [(1, 1); (2, 4); (3, 9); (4, 16); (5, 25)].
  cbn [dict_get]. case_bool_decide as Hk.
  - assert (k = 1 \/ k = 2 \/ k = 3 \/ k = 4 \/ k = 5) as Hcases by lia.
    destruct Hcases as [-> | [-> | [-> | [-> | ->]]]]; reflexivity.
  - repeat match goal with
           | |- context [Z.eqb ?a k] => destruct (Z.eqb_spec a k); [lia |]
           end.
    reflexivity.
Qed.

(** ** The even-number filter *)

Section FilterFacts.

Variable f : Z -> bool.

Lemma py_filter_sublist (xs : list Z) : py_filter f xs `sublist_of` xs.
Proof.
  induction xs as [| x rest IH]; simpl.
  - apply sublist_nil.
  - destruct (f x); [apply sublist_skip | apply sublist_cons]; exact IH.
Qed.

Lemma py_filter_elem (xs : list Z) (x : Z) :
  x ∈ py_filter f xs <-> x ∈ xs /\ f x = true.
Proof.
  induction xs as [| y rest IH]; simpl.
  - split; [intros H | intros [H _]]; apply elem_of_nil in H; contradiction.
  - destruct (f y) eqn:Hy; rewrite ?elem_of_cons, IH.
    + split; [intros [-> | [Hin Hx]] | intros [[-> | Hin] Hx]]; auto.
    + split; [intros [Hin Hx] | intros [[-> | Hin] Hx]]; auto; congruence.
Qed.

Lemma py_filter_count (xs : list Z) (x : Z) :
  count_occ Z.eq_dec (py_filter f xs) x =
    if f x then count_occ Z.eq_dec xs x else 0%nat.
Proof.
  induction xs as [| y rest IH]; simpl.
  - destruct (f x); reflexivity.
  - destruct (f y) eqn:Hy; simpl; destruct (Z.eq_dec y x) as [-> | Hne];
      rewrite IH; try rewrite Hy; destruct (f x); reflexivity.
Qed.

End FilterFacts.

(** The lambda [x % 2 == 0] is true on the multiples of two. *)
Lemma even_test_divide (x : Z) : (x `mod` 2 =? 0) = true <-> (2 | x).
Proof. rewrite Z.eqb_eq. apply Z.mod_divide. lia. Qed.

Lemma even_test_even (x : Z) : (x `mod` 2 =? 0) = Z.even x.
Proof. rewrite Zmod_even. destruct (Z.even x); reflexivity. Qed.

(** C6.  The even-number filter keeps, from every input sequence [S],
    exactly the elements divisible by two: the result is a subsequence of
    [S] (relative order kept), its members are the members of [S] that two
    divides, and each of them occurs as often as in [S].  On
    [[1, 2, 3, 4, 5]] the result is [[2, 4]].  The statement that runs it
    stores the result in a new object and leaves the input unchanged. *)
Theorem evens_spec (S : list Z) :
  evens_of S `sublist_of` S
  /\ (forall x, x ∈ evens_of S <-> x ∈ S /\ (2 | x))
  /\ (forall x, count_occ Z.eq_dec (evens_of S) x =
                  if Z.even x then count_occ Z.eq_dec S x else 0%nat)
  /\ evens_of [1; 2; 3; 4; 5] = [2; 4]
  /\ forall s : state,
       load_list "numbers" s = Some S ->
       exists s',
         set_evens s = Some s'
         /\ creates "evens" (OList (evens_of S)) s s'
         /\ load_list "numbers" s' = Some S.
Proof.
  split; [apply py_filter_sublist |].
  split; [intros x; unfold evens_of; rewrite py_filter_elem, even_test_divide; reflexivity |].
  split; [intros x; unfold evens_of; rewrite py_filter_count, even_test_even; reflexivity |].
  split; [reflexivity |].
  intros s Hnum.
  exists (assign "evens" (OList (evens_of S)) s).
  pose proof (assign_creates "evens" (OList (evens_of S)) s) as Hc.
  split; [unfold set_evens; rewrite Hnum; reflexivity |].
  split; [exact Hc |].
  apply (creates_load_list _ _ _ _ _ _ Hc); [discriminate | exact Hnum].
Qed.

Lemma evens_spec_witness :
  load_list "numbers" (assign "numbers" (OList [4; 7; -6; 4]) initial)
    = Some [4; 7; -6; 4]
  /\ evens_of [4; 7; -6; 4] = [4; -6; 4]
  /\ evens_of [4; 7; -6; 4] `sublist_of` [4; 7; -6; 4]
  /\ exists s',
       set_evens (assign "numbers" (OList [4; 7; -6; 4]) initial) = Some s'
       /\ creates "evens" (OList (evens_of [4; 7; -6; 4]))
            (assign "numbers" (OList [4; 7; -6; 4]) initial) s'
       /\ load_list "numbers" s' = Some [4; 7; -6; 4].
Proof.
  split; [reflexivity |].
  split; [reflexivity |].
  split; [exact (proj1 (evens_spec [4; 7; -6; 4])) |].
  apply (proj2 (proj2 (proj2 (proj2 (evens_spec [4; 7; -6; 4]))))). reflexivity.
Defined.

(** ** The class [User] *)

Lemma length_append (s t : string) :
  String.length (s +:+ t) = (String.length s + String.length t)%nat.
Proof. induction s as [| c s IH]; simpl; [reflexivity | rewrite IH; reflexivity]. Qed.

Lemma substring_append_left (s t : string) :
  substring 0 (String.length s) (s +:+ t) = s.
Proof. induction s as [| c s IH]; simpl; [destruct t; reflexivity | rewrite IH; reflexivity]. Qed.

(** C7.  For every name [s] and age [a], [User(s, a)] stores both
    verbatim, whatever they are, and [greet] returns ["Hello, "], the
    stored name and ["!"] in this order, so the name sits at offset 7 of the
    greeting.  In particular [User("Nina", 25).greet()] is
    ["Hello, Nina!"]. *)
Theorem user_spec (s : string) (a : Z) :
  name (__init__ s a) = s
  /\ age (__init__ s a) = a
  /\ greet (__init__ s a) = "Hello, " +:+ s +:+ "!"
  /\ substring 7 (String.length s) (greet (__init__ s a)) = s
  /\ String.length (greet (__init__ s a)) = (String.length s + 8)%nat
  /\ greet (__init__ "Nina" 25) = "Hello, Nina!".
Proof.
  split; [reflexivity |].
  split; [reflexivity |].
  split; [reflexivity |].
  split; [exact (substring_append_left s "!") |].
  split; [| reflexivity].
  unfold greet. rewrite !length_append. simpl. lia.
Qed.

(** C10.  The greeting does not depend on the age: for every name [s] and
    ages [a1], [a2], [User(s, a1).greet()] and [User(s, a2).greet()] are
    the same string. *)
Theorem greet_ignores_age (s : string) (a1 a2 : Z) :
  greet (__init__ s a1) = greet (__init__ s a2).
Proof. reflexivity. Qed.

(** ** Running the script *)

Section RunFacts.

(** Running one statement more. *)
Lemma run_take_S (prog : list stmt) :
  forall (k : nat) (s : state),
    run (take (S k) prog) s =
      s' ← run (take k prog) s;
      match prog !! k with Some c => c s' | None => Some s' end.
Proof.
  induction prog as [| c rest IH]; intros k s.
  - destruct k; reflexivity.
  - destruct k as [| k].
    + simpl. destruct (c s); reflexivity.
    + change (run (take (S (S k)) (c :: rest)) s)
        with (s1 ← c s; run (take (S k) rest) s1).
      change (run (take (S k) (c :: rest)) s)
        with (s1 ← c s; run (take k rest) s1).
      destruct (c s) as [s1 |]; simpl; [apply IH | reflexivity].
Qed.

Lemma state_after_S (k : nat) :
  state_after (S k) =
    s ← state_after k;
    match script !! k with Some c => c s | None => Some s end.
Proof. apply run_take_S. Qed.

Lemma append_empty (t : string) : t +:+ EmptyString = t.
Proof.
  induction t as [| c t IH]; [reflexivity |].
  change (String c (t +:+ EmptyString) = String c t). rewrite IH. reflexivity.
Qed.

Lemma append_append (t u v : string) : (t +:+ u) +:+ v = t +:+ (u +:+ v).
Proof.
  induction t as [| c t IH]; [reflexivity |].
  change (String c ((t +:+ u) +:+ v) = String c (t +:+ (u +:+ v))).
  rewrite IH. reflexivity.
Qed.

Lemma extends_refl (s : state) : extends s s.
Proof. split; auto. exists EmptyString. symmetry. apply append_empty. Qed.

Lemma extends_trans (s1 s2 s3 : state) :
  extends s1 s2 -> extends s2 s3 -> extends s1 s3.
Proof.
  intros [Hh12 Hg12 [m12 Ho12]] [Hh23 Hg23 [m23 Ho23]].
  split; auto.
  exists (m12 +:+ m23). rewrite Ho23, Ho12. apply append_append.
Qed.

Lemma print_extends (args : list value) (s : state) : extends s (print args s).
Proof. split; simpl; auto. exists (print_text args). reflexivity. Qed.

(** Binding a name that was free keeps every earlier binding. *)
Lemma creates_extends (x : string) (o : obj) (s s' : state) :
  globals s !! x = None -> creates x o s s' -> extends s s'.
Proof.
  intros Hfree (l & _ & _ & _ & Hheap & Hglob & Hout).
  split; [exact Hheap | |].
  - intros y ly Hy. rewrite Hglob; [exact Hy |].
    intros ->. congruence.
  - exists EmptyString. rewrite Hout. symmetry. apply append_empty.
Qed.

Lemma assign_extends (x : string) (o : obj) (s : state) :
  globals s !! x = None -> extends s (assign x o s).
Proof. intros Hfree. exact (creates_extends _ _ _ _ Hfree (assign_creates x o s)). Qed.

(** What a name reads is kept by every extension. *)
Lemma extends_load (x : string) (o : obj) (s s' : state) :
  extends s s' -> load x s = Some o -> load x s' = Some o.
Proof.
  intros [Hheap Hglob _] Hload. unfold load in *.
  destruct (globals s !! x) as [l |] eqn:Hx; simpl in Hload; [| discriminate].
  rewrite (Hglob _ _ Hx). simpl. apply Hheap. exact Hload.
Qed.

End RunFacts.

(** ** Every statement of the script only adds to the state *)

(** A printing statement: whatever it reads, it only appends to the output. *)
Ltac print_step H :=
  match type of H with
  | ?c ?s = Some ?s' =>
      unfold c in H;
      repeat match type of H with
             | context [?ld ?x s] =>
                 destruct (ld x s); simpl in H; [| discriminate H]
             end;
      injection H as <-; apply print_extends
  end.

(** An assignment: the name is free after the first [k] statements. *)
Ltac assign_step k x Hk H :=
  let Hfree := fresh "Hfree" in
  assert (Hfree : (state_after k ≫= fun s0 => globals s0 !! x) = None)
    by reflexivity;
  rewrite Hk in Hfree; simpl in Hfree;
  match type of H with
  | ?c ?s = Some ?s' =>
      unfold c in H;
      repeat match type of H with
             | context [?ld ?y s] =>
                 destruct (ld y s); simpl in H; [| discriminate H]
             end;
      injection H as <-; apply assign_extends; exact Hfree
  end.

Lemma step_extends (k : nat) (s s' : state) :
  state_after k = Some s -> state_after (S k) = Some s' -> extends s s'.
Proof.
  intros Hk HSk. rewrite state_after_S, Hk in HSk.
  change (match script !! k with Some c => c s | None => Some s end = Some s') in HSk.
  destruct k as [| k]; [change (print_fib s = Some s') in HSk; print_step HSk |].
  destruct k as [| k];
    [change (set_numbers s = Some s') in HSk; assign_step 1%nat "numbers" Hk HSk |].
  destruct k as [| k];
    [change (set_doubled s = Some s') in HSk; assign_step 2%nat "doubled" Hk HSk |].
  destruct k as [| k]; [change (print_doubled s = Some s') in HSk; print_step HSk |].
  destruct k as [| k];
    [change (set_user s = Some s') in HSk; assign_step 4%nat "user" Hk HSk |].
  destruct k as [| k]; [change (print_greet s = Some s') in HSk; print_step HSk |].
  destruct k as [| k];
    [change (set_squares s = Some s') in HSk; assign_step 6%nat "squares" Hk HSk |].
  destruct k as [| k]; [change (print_squares s = Some s') in HSk; print_step HSk |].
  destruct k as [| k];
    [change (set_evens s = Some s') in HSk; assign_step 8%nat "evens" Hk HSk |].
  destruct k as [| k]; [change (print_evens s = Some s') in HSk; print_step HSk |].
  change (Some s = Some s') in HSk. injection HSk as <-. apply extends_refl.
Qed.

(** The state before a statement exists whenever the state after it does. *)
Lemma state_after_pred (k : nat) (s' : state) :
  state_after (S k) = Some s' -> exists s, state_after k = Some s.
Proof.
  rewrite state_after_S. destruct (state_after k) as [s |]; [eauto | discriminate].
Qed.

(** No statement of the script raises: every point of the run is reached. *)
Lemma state_after_total (k : nat) : exists s, state_after k = Some s.
Proof.
  do 10 (destruct k as [| k]; [eexists; reflexivity |]).
  unfold state_after. rewrite take_ge by (simpl; lia).
  eexists; reflexivity.
Qed.

Lemma run_extends (i j : nat) (si sj : state) :
  (i <= j)%nat -> state_after i = Some si -> state_after j = Some sj -> extends si sj.
Proof.
  intros Hij. revert sj. induction Hij as [| j Hij IH]; intros sj Hi Hj.
  - rewrite Hi in Hj. injection Hj as <-. apply extends_refl.
  - destruct (state_after_pred _ _ Hj) as [sm Hm].
    apply (extends_trans _ sm); [apply IH; assumption |].
    apply (step_extends j); assumption.
Qed.

(** C8.  Nothing is changed once it exists.  Every point of the run is
    reached, and between any two points [i <= j] every object keeps its
    contents, every name keeps its binding and reads the same value, and
    the output only grows.  So, from its assignment on, [numbers] is
    [[1, 2, 3, 4, 5]] across the doubling, the filtering and every [print],
    and from its construction on [user] has the name ["Nina"] and the age
    [25]. *)
Theorem no_mutation (i j : nat) (Hij : (i <= j)%nat) :
  exists si sj,
    state_after i = Some si
    /\ state_after j = Some sj
    /\ extends si sj
    /\ (forall x o, load x si = Some o -> load x sj = Some o)
    /\ ((2 <= j)%nat -> load_list "numbers" sj = Some [1; 2; 3; 4; 5])
    /\ ((5 <= j)%nat -> load_user "user" sj = Some {| name := "Nina"; age := 25 |}).
Proof.
  destruct (state_after_total i) as [si Hi], (state_after_total j) as [sj Hj].
  exists si, sj.
  pose proof (run_extends i j si sj Hij Hi Hj) as Hext.
  split; [exact Hi |].
  split; [exact Hj |].
  split; [exact Hext |].
  split; [intros x o; apply extends_load; exact Hext |].
  split; intros Hle.
  - assert (H : (state_after 2 ≫= load "numbers") = Some (OList [1; 2; 3; 4; 5]))
      by reflexivity.
    destruct (state_after 2) as [s2 |] eqn:Hs2; [simpl in H | discriminate H].
    unfold load_list.
    rewrite (extends_load _ _ s2 sj (run_extends 2 j s2 sj Hle Hs2 Hj) H).
    reflexivity.
  - assert (H : (state_after 5 ≫= load "user")
                = Some (OUser {| name := "Nina"; age := 25 |}))
      by reflexivity.
    destruct (state_after 5) as [s5 |] eqn:Hs5; [simpl in H | discriminate H].
    unfold load_user.
    rewrite (extends_load _ _ s5 sj (run_extends 5 j s5 sj Hle Hs5 Hj) H).
    reflexivity.
Qed.

Lemma no_mutation_witness :
  (5 <= 10)%nat
  /\ exists si sj,
       state_after 5 = Some si
       /\ state_after 10 = Some sj
       /\ extends si sj
       /\ (forall x o, load x si = Some o -> load x sj = Some o)
       /\ load_list "numbers" sj = Some [1; 2; 3; 4; 5]
       /\ load_user "user" sj = Some {| name := "Nina"; age := 25 |}.
Proof.
  split; [lia |].
  destruct (no_mutation 5 10 ltac:(lia)) as (si & sj & Hi & Hj & Hext & Hload & Hn & Hu).
  exists si, sj.
  split; [exact Hi |].
  split; [exact Hj |].
  split; [exact Hext |].
  split; [exact Hload |].
  split; [apply Hn; lia | apply Hu; lia].
Defined.

(** C3.  The script runs to its end without an exception and writes
    exactly five lines to standard output, in this order. *)
Theorem script_output :
  stdout <$> run script initial =
    Some ("fib(10) = 55" +:+ nl +:+
          "Doubled: [2, 4, 6, 8, 10]" +:+ nl +:+
          "Hello, Nina!" +:+ nl +:+
          "Squares: {1: 1, 2: 4, 3: 9, 4: 16, 5: 25}" +:+ nl +:+
          "Evens: [2, 4]" +:+ nl)
  /\ (run script initial ≫= fun s => lines (stdout s)) =
       Some ["fib(10) = 55";
             "Doubled: [2, 4, 6, 8, 10]";
             "Hello, Nina!";
             "Squares: {1: 1, 2: 4, 3: 9, 4: 16, 5: 25}";
             "Evens: [2, 4]"].
Proof. split; reflexivity. Qed.

(** * Further properties of the code *)

(** ** [fib]: stack, order, growth and cost *)

Section FibMore.

Lemma fib_ref_bounds (k : nat) :
  0 <= fib_ref k /\ 1 <= fib_ref (S k) /\ fib_ref k <= fib_ref (S k).
Proof.
  induction k as [| k (H0 & H1 & Hle)].
  - simpl. lia.
  - rewrite fib_ref_SS. lia.
Qed.

Lemma fib_nonneg (n : Z) : 0 <= n -> 0 <= fib n.
Proof.
  intros Hn. destruct (fib_is_ref_nat (Z.to_nat n)) as [H _].
  rewrite Z2Nat.id in H by exact Hn. rewrite H. apply fib_ref_bounds.
Qed.

Lemma fib_pos (n : Z) : 1 <= n -> 1 <= fib n.
Proof.
  intros Hn. destruct (fib_is_ref_nat (Z.to_nat (n - 1))) as [_ H].
  rewrite Nat2Z.inj_succ, Z2Nat.id in H by lia.
  replace (Z.succ (n - 1)) with n in H by lia.
  rewrite H. apply fib_ref_bounds.
Qed.

Lemma fib_succ_le (n : Z) : fib n <= fib (n + 1).
Proof.
  destruct (Z_le_gt_dec n 0) as [Hle | Hgt].
  - rewrite !fib_guard by lia. lia.
  - rewrite (fib_rec (n + 1)) by lia.
    replace (n + 1 - 1) with n by lia.
    pose proof (fib_nonneg (n + 1 - 2)). lia.
Qed.

Lemma fib_le_nat (k : nat) (n : Z) : fib n <= fib (n + Z.of_nat k).
Proof.
  induction k as [| k IH].
  - replace (n + Z.of_nat 0) with n by lia. lia.
  - replace (n + Z.of_nat (S k)) with (n + Z.of_nat k + 1) by lia.
    pose proof (fib_succ_le (n + Z.of_nat k)). lia.
Qed.

End FibMore.


(** X2.  [fib] keeps the order of the integers, and its result has the
    sign of its argument: it is negative exactly on negative arguments and
    zero exactly at zero. *)
Theorem fib_monotone (n m : Z) (Hnm : n <= m) :
  fib n <= fib m /\ (fib n < 0 <-> n < 0) /\ (fib n = 0 <-> n = 0).
Proof.
  split.
  { replace m with (n + Z.of_nat (Z.to_nat (m - n))) by lia. apply fib_le_nat. }
  destruct (Z_le_gt_dec n 0) as [Hle | Hgt].
  - rewrite fib_guard by lia. lia.
  - pose proof (fib_pos n). lia.
Qed.

Lemma fib_monotone_witness :
  -2 <= 6 /\ fib (-2) <= fib 6 /\ (fib (-2) < 0 <-> -2 < 0) /\ (fib (-2) = 0 <-> -2 = 0).
Proof. split; [lia | apply (fib_monotone (-2) 6); lia]. Defined.

Section FibGrowth.

(** Two steps of the recursion at least double the result. *)
Lemma fib_lower_nat (k : nat) :
  2 ^ Z.of_nat k <= fib (2 * Z.of_nat k + 1)
  /\ 2 ^ Z.of_nat k <= fib (2 * Z.of_nat k + 2).
Proof.
  induction k as [| k [IH1 IH2]].
  - split; reflexivity.
  - rewrite Nat2Z.inj_succ, Z.pow_succ_r by lia.
    assert (H3 : 2 * 2 ^ Z.of_nat k <= fib (2 * Z.succ (Z.of_nat k) + 1)).
    { rewrite fib_rec by lia.
      replace (2 * Z.succ (Z.of_nat k) + 1 - 1) with (2 * Z.of_nat k + 2) by lia.
      replace (2 * Z.succ (Z.of_nat k) + 1 - 2) with (2 * Z.of_nat k + 1) by lia.
      lia. }
    split; [exact H3 |].
    rewrite fib_rec by lia.
    replace (2 * Z.succ (Z.of_nat k) + 2 - 1) with (2 * Z.succ (Z.of_nat k) + 1) by lia.
    replace (2 * Z.succ (Z.of_nat k) + 2 - 2) with (2 * Z.of_nat k + 2) by lia.
    pose proof (Z.pow_nonneg 2 (Z.of_nat k)). lia.
Qed.

Lemma fib_upper_nat (k : nat) :
  fib (Z.of_nat k) < 2 ^ Z.of_nat k /\ fib (Z.of_nat k + 1) < 2 ^ (Z.of_nat k + 1).
Proof.
  induction k as [| k [IH0 IH1]].
  - split; reflexivity.
  - rewrite Nat2Z.inj_succ.
    replace (Z.succ (Z.of_nat k)) with (Z.of_nat k + 1) by lia.
    split; [exact IH1 |].
    rewrite fib_rec by lia.
    replace (Z.of_nat k + 1 + 1 - 1) with (Z.of_nat k + 1) by lia.
    replace (Z.of_nat k + 1 + 1 - 2) with (Z.of_nat k) by lia.
    rewrite (Z.pow_add_r 2 (Z.of_nat k + 1) 1) by lia.
    rewrite (Z.pow_add_r 2 (Z.of_nat k) 1) in * by lia.
    lia.
Qed.

End FibGrowth.

(** X3.  On non-negative arguments [fib] grows exponentially:
    [2 ^ (n // 2) <= fib (n + 1)], and [fib n < 2 ^ n], so the result of
    [fib(n)] fits in [n] bits. *)
Theorem fib_growth (n : Z) (Hn : 0 <= n) :
  2 ^ (n / 2) <= fib (n + 1) /\ fib n < 2 ^ n.
Proof.
  split.
  - destruct (fib_lower_nat (Z.to_nat (n / 2))) as [Hodd Heven].
    assert (Hq : 0 <= n / 2) by (apply Z.div_pos; lia).
    rewrite Z2Nat.id in Hodd, Heven by exact Hq.
    pose proof (Z.div_mod n 2 ltac:(lia)) as Hdm.
    pose proof (Z.mod_pos_bound n 2 ltac:(lia)) as Hr.
    assert (n mod 2 = 0 \/ n mod 2 = 1) as [H0 | H1] by lia.
    + replace (n + 1) with (2 * (n / 2) + 1) by lia. exact Hodd.
    + replace (n + 1) with (2 * (n / 2) + 2) by lia. exact Heven.
  - destruct (fib_upper_nat (Z.to_nat n)) as [H _].
    rewrite Z2Nat.id in H by exact Hn. exact H.
Qed.

Lemma fib_growth_witness :
  0 <= 9 /\ 2 ^ (9 / 2) <= fib (9 + 1) /\ fib 9 < 2 ^ 9.
Proof. split; [lia | apply (fib_growth 9); lia]. Defined.

Section FibCost.

(** Counting the calls does not change what is computed. *)
Lemma fib_calls_result (depth : nat) :
  forall n, fst <$> fib_calls depth n = fib_depth depth n.
Proof.
  induction depth as [| d IH]; intros n; [reflexivity |].
  simpl. destruct (n <=? 1); [reflexivity |].
  rewrite <- (IH (n - 1)), <- (IH (n - 2)).
  destruct (fib_calls d (n - 1)) as [[a ca] |]; [| reflexivity].
  destruct (fib_calls d (n - 2)) as [[b cb] |]; reflexivity.
Qed.

Lemma fib_calls_enough (depth : nat) :
  forall n, (0 < depth)%nat -> n <= Z.of_nat depth ->
    fib_calls depth n =
      Some (fib n, if n <=? 0 then 1 else 2 * fib (n + 1) - 1).
Proof.
  induction depth as [| d IH]; intros n Hpos Hn; [lia |].
  simpl. destruct (Z.leb_spec n 1) as [Hle | Hgt].
  - rewrite fib_guard by exact Hle.
    destruct (Z.leb_spec n 0) as [H0 | H0]; [reflexivity |].
    replace n with 1 by lia. reflexivity.
  - rewrite !IH by lia.
    destruct (Z.leb_spec n 0); [lia |].
    destruct (Z.leb_spec (n - 1) 0); [lia |].
    rewrite (fib_rec n) by lia.
    rewrite (fib_rec (n + 1)) by lia.
    replace (n + 1 - 1) with n by lia.
    replace (n + 1 - 2) with (n - 1) by lia.
    replace (n - 1 + 1) with n by lia.
    rewrite (fib_rec n) by lia.
    destruct (Z.leb_spec (n - 2) 0) as [H2 | H2].
    + replace n with 2 by lia. reflexivity.
    + replace (n - 2 + 1) with (n - 1) by lia.
      f_equal. f_equal. lia.
Qed.

End FibCost.

(** X4.  There is no memoisation: once the stack is deep enough, [fib(n)]
    enters [fib] once for [n <= 0] and [2 * fib(n + 1) - 1] times for
    [n >= 1], which is at least [2 ^ (n // 2)] times; the result is that of
    the uncounted run. *)
Theorem fib_call_count (depth : nat) (n : Z)
    (Hdepth : Z.max n 1 <= Z.of_nat depth) :
  fib_calls depth n = Some (fib n, if n <=? 0 then 1 else 2 * fib (n + 1) - 1)
  /\ fst <$> fib_calls depth n = fib_depth depth n
  /\ (0 <= n -> 2 ^ (n / 2) <= 2 * fib (n + 1) - 1).
Proof.
  split; [apply fib_calls_enough; lia |].
  split; [apply fib_calls_result |].
  intros Hn. pose proof (proj1 (fib_growth n Hn)) as Hlow.
  pose proof (Z.pow_pos_nonneg 2 (n / 2) ltac:(lia) ltac:(apply Z.div_pos; lia)).
  lia.
Qed.

Lemma fib_call_count_witness :
  Z.max 10 1 <= Z.of_nat 10
  /\ fib_calls 10 10 = Some (55, 177)
  /\ fst <$> fib_calls 10 10 = fib_depth 10 10
  /\ 2 ^ (10 / 2) <= 2 * fib (10 + 1) - 1.
Proof.
  split; [lia |].
  pose proof (fib_call_count 10 10 ltac:(lia)) as H.
  split; [exact (proj1 H) |].
  split; [exact (proj1 (proj2 H)) | apply (proj2 (proj2 H)); lia].
Defined.

(** ** How doubling and filtering compose *)

Section ContainerMore.

Lemma doubled_even (n : Z) : ((n * 2) `mod` 2 =? 0) = true.
Proof. rewrite Z.mod_mul by lia. reflexivity. Qed.

Lemma py_filter_all (f : Z -> bool) (xs : list Z) :
  Forall (fun x => f x = true) xs -> py_filter f xs = xs.
Proof.
  induction 1 as [| x rest Hx _ IH]; simpl; [reflexivity |].
  rewrite Hx, IH. reflexivity.
Qed.

Lemma py_filter_Forall (f : Z -> bool) (xs : list Z) :
  Forall (fun x => f x = true) (py_filter f xs).
Proof.
  induction xs as [| x rest IH]; simpl; [constructor |].
  destruct (f x) eqn:Hx; [constructor; assumption | exact IH].
Qed.

Lemma py_filter_length (f : Z -> bool) (xs : list Z) :
  (length (py_filter f xs) <= length xs)%nat.
Proof.
  induction xs as [| x rest IH]; simpl; [lia |].
  destruct (f x); simpl; lia.
Qed.

Lemma py_filter_fixed (f : Z -> bool) (xs : list Z) :
  py_filter f xs = xs -> Forall (fun x => f x = true) xs.
Proof.
  intros Heq. rewrite <- Heq. apply py_filter_Forall.
Qed.

End ContainerMore.

(** X5.  Doubling loses nothing: two inputs with the same doubled list are
    the same list. *)
Theorem doubling_injective (S T : list Z) (Heq : doubled_of S = doubled_of T) :
  S = T.
Proof.
  revert T Heq. induction S as [| x S IH]; intros [| y T] Heq;
    try discriminate Heq; [reflexivity |].
  unfold doubled_of in Heq. rewrite !fmap_cons in Heq.
  injection Heq as Hxy Hrest.
  f_equal; [lia | apply IH; exact Hrest].
Qed.

Lemma doubling_injective_witness :
  doubled_of [3; -1] = doubled_of [3; -1] /\ [3; -1] = [3; -1].
Proof. split; [reflexivity | apply (doubling_injective [3; -1] [3; -1]); reflexivity]. Defined.

(** X6.  Filtering what the doubling produced removes nothing: every
    doubled element passes the test [x % 2 == 0], for every input, negative
    numbers included. *)
Theorem evens_of_doubled (S : list Z) : evens_of (doubled_of S) = doubled_of S.
Proof.
  unfold evens_of. apply py_filter_all.
  unfold doubled_of. apply Forall_fmap, Forall_forall.
  intros x _. apply doubled_even.
Qed.

(** X7.  The filter is idempotent, works through concatenation piece by
    piece, never returns more elements than it got, and returns its input
    unchanged exactly when two divides every element. *)
Theorem evens_laws (S T : list Z) :
  evens_of (evens_of S) = evens_of S
  /\ evens_of (S ++ T) = evens_of S ++ evens_of T
  /\ (length (evens_of S) <= length S)%nat
  /\ (evens_of S = S <-> Forall (fun x => (2 | x)) S).
Proof.
  split; [apply py_filter_all, py_filter_Forall |].
  split.
  { unfold evens_of. induction S as [| x S IH]; simpl; [reflexivity |].
    destruct (x `mod` 2 =? 0); rewrite IH; reflexivity. }
  split; [apply py_filter_length |].
  split.
  - intros Heq. apply py_filter_fixed in Heq.
    eapply Forall_impl; [exact Heq |].
    intros x Hx. apply even_test_divide. exact Hx.
  - intros Hall. apply py_filter_all.
    eapply Forall_impl; [exact Hall |].
    intros x Hx. apply even_test_divide. exact Hx.
Qed.

(** ** The greeting determines the name *)

Lemma append_bang_inj (s t : string) : s +:+ "!" = t +:+ "!" -> s = t.
Proof.
  revert t. induction s as [| c s IH]; intros [| d t] Heq.
  - reflexivity.
  - change (String "!" EmptyString = String d (t +:+ "!")) in Heq.
    injection Heq as _ Hrest. destruct t; discriminate Hrest.
  - change (String c (s +:+ "!") = String "!" EmptyString) in Heq.
    injection Heq as _ Hrest. destruct s; discriminate Hrest.
  - change (String c (s +:+ "!") = String d (t +:+ "!")) in Heq.
    injection Heq as -> Hrest. f_equal. apply IH. exact Hrest.
Qed.

(** X8.  Two users greet with the same string exactly when they have the
    same name: the name can be read back from the greeting, and nothing
    else of the user shows in it. *)
Theorem greet_determines_name (u1 u2 : User) :
  greet u1 = greet u2 <-> name u1 = name u2.
Proof.
  split.
  - unfold greet. intros Heq.
    change ("Hello, " +:+ name u1 +:+ "!")
      with (String "H" (String "e" (String "l" (String "l" (String "o"
             (String "," (String " " (name u1 +:+ "!")))))))) in Heq.
    change ("Hello, " +:+ name u2 +:+ "!")
      with (String "H" (String "e" (String "l" (String "l" (String "o"
             (String "," (String " " (name u2 +:+ "!")))))))) in Heq.
    injection Heq as Heq. apply append_bang_inj. exact Heq.
  - unfold greet. intros ->. reflexivity.
Qed.

(** ** The script from an arbitrary starting state *)

Section ScriptAnywhere.



Lemma load_print (x : string) (args : list value) (s : state) :
  load x (print args s) = load x s.
Proof. reflexivity. Qed.








End ScriptAnywhere.





